(** * netcore1.py: maximum pair remainder and special-range counting

    A shallow embedding of [src/netcore1.py].  Python integers are [Z],
    lists are [list], a [str] is the list of its Unicode code points.
    Exceptions and the [return] statements inside loops are threaded
    through a small control-flow monad; the two [while] loops (the one in
    [count_at_most] and the one of [bisect_left]) are defined by
    well-founded recursion on the distance their indices still have to
    travel. *)

From Stdlib Require Import ZArith NArith List Lia Bool.
From Stdlib Require Import Sorting.Sorted Sorting.Permutation.
From Equations Require Import Equations.
Import ListNotations.

Open Scope Z_scope.

(** ** Control flow *)

Inductive exn : Type :=
| ZeroDivisionError
| IndexError.

(** A statement either falls through with a value, leaves the enclosing
    function with [return v], or raises. *)
Inductive flow (A : Type) : Type :=
| Normal (a : A)
| Return (v : Z)
| Raise (e : exn).

Arguments Normal {A} a.
Arguments Return {A} v.
Arguments Raise {A} e.

Definition bind {A B : Type} (m : flow A) (f : A -> flow B) : flow B :=
  match m with
  | Normal a => f a
  | Return v => Return v
  | Raise e => Raise e
  end.

Notation "x <- m ;; f" := (bind m (fun x => f))
  (at level 61, m at next level, right associativity).
Notation "' pat <- m ;; f" := (bind m (fun x => match x with pat => f end))
  (at level 61, pat pattern, m at next level, right associativity).

(** [for x in xs: body], carrying the loop's variables in [s]. *)
Fixpoint for_each {A S : Type} (xs : list A) (s : S) (body : S -> A -> flow S)
  : flow S :=
  match xs with
  | [] => Normal s
  | x :: rest => s' <- body s x ;; for_each rest s' body
  end.

(** Matching on a value while keeping the equation with what was matched,
    for the termination proofs of the [while] loops. *)
Definition inspect {A : Type} (x : A) : {y : A | x = y} := exist _ x eq_refl.

(** A function body always ends in [return] or in an exception, so it
    has nothing to fall through with. *)
Definition call (body : flow Empty_set) : flow Z :=
  match body with
  | Normal impossible => match impossible with end
  | Return v => Normal v
  | Raise e => Raise e
  end.

(** ** Python primitives *)

Module Py.

Definition len {A : Type} (l : list A) : Z := Z.of_nat (List.length l).

(** A character is its Unicode code point; a [str] is the sequence of
    its characters, which is what iterating over it, [len] and [in]
    see. *)
Definition char : Type := N.
Definition str : Type := list char.

(** [a % k]: floor modulus, the sign follows the divisor. *)
Definition mod_ (a k : Z) : flow Z :=
  if k =? 0 then Raise ZeroDivisionError else Normal (a mod k).

(** [l[i]], negative indices counting from the end. *)
Definition getitem (l : list Z) (i : Z) : flow Z :=
  let j := if i <? 0 then i + len l else i in
  if j <? 0 then Raise IndexError
  else match nth_error l (Z.to_nat j) with
       | Some v => Normal v
       | None => Raise IndexError
       end.

(** [enumerate(l)] *)
Fixpoint enumerate_from (i : Z) (l : list Z) : list (Z * Z) :=
  match l with
  | [] => []
  | v :: rest => (i, v) :: enumerate_from (i + 1) rest
  end.

Definition enumerate (l : list Z) : list (Z * Z) := enumerate_from 0 l.

(** [l.sort()] on integers: the ascending rearrangement of [l]. *)
Fixpoint insert (x : Z) (l : list Z) : list Z :=
  match l with
  | [] => [x]
  | y :: rest => if x <=? y then x :: y :: rest else y :: insert x rest
  end.

Fixpoint sort (l : list Z) : list Z :=
  match l with
  | [] => []
  | x :: rest => insert x (sort rest)
  end.

(** [bisect.bisect_left(a, x)], the standard library's loop:
<<
    lo, hi = 0, len(a)
    while lo < hi:
        mid = (lo + hi) // 2
        if a[mid] < x: lo = mid + 1
        else: hi = mid
    return lo
>> *)
Equations? bisect_loop (a : list Z) (x lo hi : Z) : flow Z
  by wf (Z.to_nat (hi - lo)) lt :=
  bisect_loop a x lo hi with Z_lt_dec lo hi => {
    | right _ => Normal lo
    | left _ with getitem a ((lo + hi) / 2) => {
        | Normal v with Z_lt_dec v x => {
            | left _ => bisect_loop a x ((lo + hi) / 2 + 1) hi
            | right _ => bisect_loop a x lo ((lo + hi) / 2) }
        | Return r => Return r
        | Raise e => Raise e } }.
Proof.
  - assert (lo <= (lo + hi) / 2) by (apply Z.div_le_lower_bound; lia).
    lia.
  - assert ((lo + hi) / 2 < hi) by (apply Z.div_lt_upper_bound; lia).
    lia.
Qed.

Definition bisect_left (a : list Z) (x : Z) : flow Z :=
  bisect_loop a x 0 (len a).

End Py.

(** ** find_maximum_remainder *)

Module MaxRemainder.
Import Py.

(** Body of [for value in arr]; the state is [(evens, odds)]. *)
Definition partition_step (k : Z) (st : list Z * list Z) (value : Z)
  : flow (list Z * list Z) :=
  let '(evens, odds) := st in
  remainder <- mod_ value k ;;
  let remainder := if remainder <? 0 then remainder + k else remainder in
  if negb (Z.land value 1 =? 0)
  then Normal (evens, odds ++ [remainder])
  else Normal (evens ++ [remainder], odds).

(** Body of [for even_rem in evens]; the state is [best]. *)
Definition search_step (k : Z) (odds : list Z) (target_best : Z)
  (best even_rem : Z) : flow Z :=
  let target := k - even_rem in
  idx <- bisect_left odds target ;;
  best <- (if idx >? 0 then
             o <- getitem odds (idx - 1) ;;
             let candidate := even_rem + o in
             if candidate >? best then
               let best := candidate in
               if best =? target_best then Return best else Normal best
             else Normal best
           else Normal best) ;;
  best <- (if idx <? len odds then
             o <- getitem odds idx ;;
             candidate <- mod_ (even_rem + o) k ;;
             if candidate >? best then
               let best := candidate in
               if best =? target_best then Return best else Normal best
             else Normal best
           else Normal best) ;;
  Normal best.

Definition find_maximum_remainder (n : Z) (arr : list Z) (k : Z) : flow Z :=
  call (
    if k =? 1 then Return 0 else
    '(evens, odds) <- for_each arr ([], []) (partition_step k) ;;
    let evens := sort evens in
    let odds := sort odds in
    let best := 0 in
    let target_best := k - 1 in
    best <- for_each evens best (search_step k odds target_best) ;;
    Return best).

(** The same function with the two [if best == target_best: return best]
    statements removed: the loop runs over all of [evens]. *)
Definition search_step_no_early_return (k : Z) (odds : list Z)
  (best even_rem : Z) : flow Z :=
  let target := k - even_rem in
  idx <- bisect_left odds target ;;
  best <- (if idx >? 0 then
             o <- getitem odds (idx - 1) ;;
             let candidate := even_rem + o in
             if candidate >? best then Normal candidate else Normal best
           else Normal best) ;;
  best <- (if idx <? len odds then
             o <- getitem odds idx ;;
             candidate <- mod_ (even_rem + o) k ;;
             if candidate >? best then Normal candidate else Normal best
           else Normal best) ;;
  Normal best.

Definition find_maximum_remainder_no_early_return
  (n : Z) (arr : list Z) (k : Z) : flow Z :=
  call (
    if k =? 1 then Return 0 else
    '(evens, odds) <- for_each arr ([], []) (partition_step k) ;;
    let evens := sort evens in
    let odds := sort odds in
    let best := 0 in
    best <- for_each evens best (search_step_no_early_return k odds) ;;
    Return best).

(** *** Reference semantics: the maximum over all even/odd pairs *)

(** Every [(a + b) mod k] with [a] an even and [b] an odd element. *)
Definition pair_remainders (arr : list Z) (k : Z) : list Z :=
  flat_map (fun a => map (fun b => (a + b) mod k) (filter Z.odd arr))
           (filter Z.even arr).

(** Their maximum, 0 when there is no pair. *)
Definition max_pair_remainder (arr : list Z) (k : Z) : Z :=
  fold_right Z.max 0 (pair_remainders arr k).

(** The range [[0, k)] of a normalised remainder. *)
Definition in_range (k r : Z) : Prop := 0 <= r < k.

End MaxRemainder.

(** ** count_special_ranges *)

Module SpecialRanges.
Import Py.

(** [special_set = set(specials)], kept as the list of its members:
    the function only asks it for membership. *)
Definition special_set (specials : str) : list char := specials.

(** [ch in special_set] *)
Definition is_special (specials : str) (ch : char) : bool :=
  existsb (N.eqb ch) (special_set specials).

(** [binary = [1 if ch in special_set else 0 for ch in types]] *)
Definition binary_of (types specials : str) : list Z :=
  map (fun ch => if is_special specials ch then 1 else 0) types.

(** The inner loop of [count_at_most]:
<<
    while current > limit:
        current -= binary[left]
        left += 1
>>
    ([left_] and [right_] stand for the variables [left] and [right],
    which are constructor names here.) *)
Equations? shrink (binary : list Z) (limit current left_ : Z) : flow (Z * Z)
  by wf (Z.to_nat (len binary - left_)) lt :=
  shrink binary limit current left_ with inspect (current >? limit) => {
    | exist _ false _ => Normal (current, left_)
    | exist _ true _ with inspect (getitem binary left_) => {
        | exist _ (Normal v) _ => shrink binary limit (current - v) (left_ + 1)
        | exist _ (Return r) _ => Return r
        | exist _ (Raise e) _ => Raise e } }.
Proof.
  match goal with H : getitem _ _ = Normal _ |- _ => rename H into Hget end.
  unfold getitem, len in *.
  destruct (Z.ltb_spec left_ 0) as [Hneg | Hpos]; [lia |].
  destruct (Z.ltb_spec left_ 0) as [Hneg | _]; [lia |].
  destruct (nth_error binary (Z.to_nat left_)) eqn:Hnth; [| discriminate].
  assert (Z.to_nat left_ < List.length binary)%nat
    by (apply nth_error_Some; congruence).
  lia.
Qed.

(** Body of [for right, val in enumerate(binary)]; the state is
    [(total, current, left)]. *)
Definition count_step (binary : list Z) (limit : Z)
  (st : Z * Z * Z) (item : Z * Z) : flow (Z * Z * Z) :=
  let '(total, current, left_) := st in
  let '(right_, val) := item in
  let current := current + val in
  '(current, left_) <- shrink binary limit current left_ ;;
  let total := total + (right_ - left_ + 1) in
  Normal (total, current, left_).

(** The closure [count_at_most], with the captured [binary] made a
    parameter. *)
Definition count_at_most (binary : list Z) (limit : Z) : flow Z :=
  call (
    if limit <? 0 then Return 0 else
    let total := 0 in
    let current := 0 in
    let left_ := 0 in
    '(total, _, _) <-
      for_each (enumerate binary) (total, current, left_)
               (count_step binary limit) ;;
    Return total).

Definition count_special_ranges (n k lower upper : Z)
  (types specials : str) : flow Z :=
  call (
    let binary := binary_of types specials in
    at_most_upper <- count_at_most binary upper ;;
    at_most_below <- count_at_most binary (lower - 1) ;;
    Return (at_most_upper - at_most_below)).

(** *** Reference semantics: enumeration of all substrings *)

(** The position pairs [(i, j)] with [i <= j < n]. *)
Definition substrings (n : nat) : list (nat * nat) :=
  flat_map (fun j => map (fun i => (i, j)) (seq 0 (S j))) (seq 0 n).

Definition sumZ (l : list Z) : Z := fold_right Z.add 0 l.

(** Sum of [binary[i .. j]], both ends included. *)
Definition window_sum (binary : list Z) (i j : nat) : Z :=
  sumZ (firstn (S j - i) (skipn i binary)).

(** Sum of the first [m] flags, [binary[0 .. m - 1]]. *)
Definition prefix_sum (binary : list Z) (m : nat) : Z :=
  sumZ (firstn m binary).

(** Number of windows whose sum is at most [limit]. *)
Definition windows_at_most (binary : list Z) (limit : Z) : Z :=
  Z.of_nat (List.length
    (filter (fun '(i, j) => window_sum binary i j <=? limit)
            (substrings (List.length binary)))).

(** Number of special characters in [types[i .. j]]. *)
Definition special_count (types specials : str) (i j : nat) : Z :=
  Z.of_nat (List.length
    (filter (is_special specials)
            (firstn (S j - i) (skipn i types)))).

(** Number of substrings whose special count lies in [[lower, upper]]. *)
Definition brute_force (lower upper : Z) (types specials : str) : Z :=
  Z.of_nat (List.length
    (filter (fun '(i, j) =>
               let c := special_count types specials i j in
               (lower <=? c) && (c <=? upper))
            (substrings (List.length types)))).

End SpecialRanges.

(** * Properties *)

Module MaxRemainderExamples.
Import Py MaxRemainder.

Example find_maximum_remainder_spec_example :
  find_maximum_remainder 5 [1; 2; 3; 4; 5] 3 = Normal 2.
Proof. vm_compute. reflexivity. Qed.

End MaxRemainderExamples.

Module SpecialRangesExamples.
Import Py SpecialRanges.

(** [types = "abcab"], [specials = "ab"], by code point. *)
Example count_special_ranges_spec_example :
  count_special_ranges 5 2 1 2 [97; 98; 99; 97; 98]%N [97; 98]%N
    = Normal 11 /\
  brute_force 1 2 [97; 98; 99; 97; 98]%N [97; 98]%N = 11.
Proof. vm_compute. split; reflexivity. Qed.

(** A character outside Latin-1 is one character: [types] is the single
    code point 955, [specials] is 956 or empty. *)
Example count_special_ranges_code_points :
  count_special_ranges 1 1 1 1 [955]%N [956]%N = Normal 0 /\
  count_special_ranges 1 1 0 1 [955]%N [] = Normal 1 /\
  count_special_ranges 1 1 1 1 [955]%N [955]%N = Normal 1.
Proof. vm_compute. repeat split. Qed.

End SpecialRangesExamples.

(** ** Facts about the control-flow monad and the primitives *)

Module PyFacts.
Import Py.

Lemma for_each_app {A S : Type} (xs ys : list A) (s : S)
  (body : S -> A -> flow S) :
  for_each (xs ++ ys) s body = (s' <- for_each xs s body ;; for_each ys s' body).
Proof.
  revert s. induction xs as [| x xs IH]; intros s; simpl; [reflexivity |].
  destruct (body s x); simpl; auto.
Qed.

Lemma len_nonneg {A : Type} (l : list A) : 0 <= len l.
Proof. unfold len. lia. Qed.

Lemma getitem_nth (l : list Z) (i : Z) :
  0 <= i < len l -> getitem l i = Normal (nth (Z.to_nat i) l 0).
Proof.
  intros Hi. unfold getitem.
  destruct (Z.ltb_spec i 0) as [? | _]; [lia |].
  destruct (Z.ltb_spec i 0) as [? | _]; [lia |].
  unfold len in Hi.
  destruct (nth_error l (Z.to_nat i)) as [v |] eqn:Hnth.
  - f_equal. symmetry. apply nth_error_nth. exact Hnth.
  - apply nth_error_None in Hnth. lia.
Qed.

Lemma getitem_In (l : list Z) (i v : Z) : getitem l i = Normal v -> In v l.
Proof.
  unfold getitem. destruct (_ <? 0); [discriminate |].
  destruct (nth_error l _) as [w |] eqn:Hnth; [| discriminate].
  intros [= <-]. eapply nth_error_In. exact Hnth.
Qed.

Lemma nth_In_Z (l : list Z) (i : Z) :
  0 <= i < len l -> In (nth (Z.to_nat i) l 0) l.
Proof. intros Hi. apply nth_In. unfold len in Hi. lia. Qed.

(** The search stays inside [[lo, hi]]; whatever lies just left of the
    result is below [x], whatever lies at the result is not. *)
Lemma bisect_loop_spec (a : list Z) (x lo hi : Z) :
  0 <= lo -> lo <= hi -> hi <= len a ->
  exists idx, bisect_loop a x lo hi = Normal idx /\
    lo <= idx <= hi /\
    (idx = lo \/ nth (Z.to_nat (idx - 1)) a 0 < x) /\
    (idx = hi \/ x <= nth (Z.to_nat idx) a 0).
Proof.
  funelim (bisect_loop a x lo hi); intros Hlo Hle Hhi.
  all: try (exists lo; repeat split; auto; lia).
  all: assert (Hmid : lo <= (lo + hi) / 2 < hi)
         by (split; [apply Z.div_le_lower_bound | apply Z.div_lt_upper_bound];
             lia).
  all: match goal with
       | Hget : getitem _ _ = _ |- _ =>
           rewrite getitem_nth in Hget by lia; try discriminate Hget;
           injection Hget as Hv
       end.
  - (* a[mid] < x: continue in (mid, hi] *)
    match goal with
    | IH : _ -> _ -> _ -> exists _, _ |- _ =>
        destruct IH as (idx & Hrun & Hin & Hbelow & Habove); try lia
    end.
    exists idx. repeat split; auto; try lia.
    destruct Hbelow as [-> | Hbelow]; [| auto].
    right. replace ((lo + hi) / 2 + 1 - 1) with ((lo + hi) / 2) by lia.
    lia.
  - (* a[mid] >= x: continue in [lo, mid] *)
    match goal with
    | IH : _ -> _ -> _ -> exists _, _ |- _ =>
        destruct IH as (idx & Hrun & Hin & Hbelow & Habove); try lia
    end.
    exists idx. repeat split; auto; try lia.
    destruct Habove as [-> | Habove]; [| auto].
    right. lia.
Qed.

Lemma bisect_left_spec (a : list Z) (x : Z) :
  exists idx, bisect_left a x = Normal idx /\
    0 <= idx <= len a /\
    (idx = 0 \/ nth (Z.to_nat (idx - 1)) a 0 < x) /\
    (idx = len a \/ x <= nth (Z.to_nat idx) a 0).
Proof.
  unfold bisect_left. apply bisect_loop_spec; try lia. apply len_nonneg.
Qed.

Lemma insert_perm (x : Z) (l : list Z) : Permutation (insert x l) (x :: l).
Proof.
  induction l as [| y l IH]; simpl; [reflexivity |].
  destruct (x <=? y); [reflexivity |].
  rewrite IH. apply perm_swap.
Qed.

Lemma sort_perm (l : list Z) : Permutation (sort l) l.
Proof.
  induction l as [| x l IH]; simpl; [reflexivity |].
  rewrite insert_perm. constructor. exact IH.
Qed.

Lemma insert_sorted (x : Z) (l : list Z) :
  Sorted Z.le l -> Sorted Z.le (insert x l).
Proof.
  induction 1 as [| y l Hl IH Hhd]; simpl; [repeat constructor |].
  destruct (Z.leb_spec x y) as [Hxy | Hxy].
  - repeat constructor; auto.
  - constructor; [exact IH |].
    destruct l as [| z l]; simpl in *.
    + constructor. lia.
    + inversion Hhd; subst. destruct (x <=? z); constructor; lia.
Qed.

Lemma sort_sorted (l : list Z) : Sorted Z.le (sort l).
Proof.
  induction l as [| x l IH]; simpl; [constructor |].
  apply insert_sorted. exact IH.
Qed.

Lemma sort_Forall (P : Z -> Prop) (l : list Z) :
  Forall P l -> Forall P (sort l).
Proof.
  apply Permutation_Forall. symmetry. apply sort_perm.
Qed.

Lemma filter_all {A : Type} (f : A -> bool) (l : list A) :
  (forall a, In a l -> f a = true) -> filter f l = l.
Proof.
  induction l as [| a l IH]; intros Hall; simpl; [reflexivity |].
  rewrite (Hall a) by (left; reflexivity).
  f_equal. apply IH. intros b Hb. apply Hall. right. exact Hb.
Qed.

Lemma filter_nothing {A : Type} (f : A -> bool) (l : list A) :
  (forall a, In a l -> f a = false) -> filter f l = [].
Proof.
  induction l as [| a l IH]; intros Hall; simpl; [reflexivity |].
  rewrite (Hall a) by (left; reflexivity).
  apply IH. intros b Hb. apply Hall. right. exact Hb.
Qed.

Lemma sorted_nth_le (a : list Z) (i j : nat) :
  Sorted Z.le a -> (i <= j < List.length a)%nat -> nth i a 0 <= nth j a 0.
Proof.
  intros Hsorted. apply Sorted_StronglySorted in Hsorted;
    [| intros x y z; apply Z.le_trans].
  revert i j. induction Hsorted as [| x a _ IH Hall]; intros i j Hij.
  - simpl in Hij. lia.
  - destruct i as [| i], j as [| j]; simpl in *; try lia.
    + rewrite Forall_forall in Hall. apply Hall, nth_In. lia.
    + apply IH. lia.
Qed.

(** On a sorted list the result splits it into the elements below [x]
    and the elements from [x] up, as the library documents. *)
Lemma bisect_left_sorted (a : list Z) (x : Z) :
  Sorted Z.le a ->
  exists idx, bisect_left a x = Normal idx /\
    0 <= idx <= len a /\
    (forall i, 0 <= i < idx -> nth (Z.to_nat i) a 0 < x) /\
    (forall i, idx <= i < len a -> x <= nth (Z.to_nat i) a 0).
Proof.
  intros Hsorted.
  destruct (bisect_left_spec a x) as (idx & Hrun & Hidx & Hbelow & Habove).
  exists idx. unfold len in *. repeat split; auto; try lia; intros i Hi.
  - destruct Hbelow as [-> | Hbelow]; [lia |].
    pose proof (sorted_nth_le a (Z.to_nat i) (Z.to_nat (idx - 1)) Hsorted
                  ltac:(lia)).
    lia.
  - destruct Habove as [-> | Habove]; [lia |].
    pose proof (sorted_nth_le a (Z.to_nat idx) (Z.to_nat i) Hsorted
                  ltac:(lia)).
    lia.
Qed.

Example bisect_left_examples :
  bisect_left [0; 2; 2; 5] 2 = Normal 1 /\
  bisect_left [0; 2; 2; 5] 3 = Normal 3 /\
  bisect_left [0; 2; 2; 5] 9 = Normal 4 /\
  bisect_left [] 1 = Normal 0.
Proof. repeat split. Qed.

Example getitem_examples :
  getitem [7; 8; 9] 2 = Normal 9 /\
  getitem [7; 8; 9] (-1) = Normal 9 /\
  getitem [7; 8; 9] 3 = Raise IndexError /\
  getitem [7; 8; 9] (-4) = Raise IndexError.
Proof. repeat split. Qed.

Example mod_examples :
  mod_ (-7) 3 = Normal 2 /\ mod_ 7 (-3) = Normal (-2) /\
  mod_ 7 0 = Raise ZeroDivisionError.
Proof. repeat split. Qed.

End PyFacts.

(** ** find_maximum_remainder *)

Module MaxRemainderFacts.
Import Py PyFacts MaxRemainder.

Ltac cases_cmp :=
  repeat match goal with
    | |- context [?a >? ?b] =>
        rewrite (Z.gtb_ltb a b); destruct (Z.ltb_spec b a)
    | |- context [?a <? ?b] => destruct (Z.ltb_spec a b)
    | |- context [?a =? ?b] => destruct (Z.eqb_spec a b)
    end.

(** [value & 1] is the parity bit. *)
Lemma land_1_parity (value : Z) :
  Z.land value 1 = if Z.odd value then 1 else 0.
Proof.
  change 1 with (Z.ones 1) at 1. rewrite Z.land_ones by lia.
  change (2 ^ 1) with 2. apply Zmod_odd.
Qed.

Lemma partition_step_eq (k : Z) (evens odds : list Z) (value : Z) :
  k >= 1 ->
  partition_step k (evens, odds) value =
  Normal (if Z.odd value
          then (evens, odds ++ [value mod k])
          else (evens ++ [value mod k], odds)).
Proof.
  intros Hk. unfold partition_step, mod_.
  destruct (Z.eqb_spec k 0); [lia |]. simpl.
  pose proof (Z.mod_pos_bound value k ltac:(lia)) as Hr.
  destruct (Z.ltb_spec (value mod k) 0); [lia |].
  rewrite land_1_parity. destruct (Z.odd value); reflexivity.
Qed.

(** The partitioning loop, started anywhere, appends the remainders of
    the even values to [evens] and those of the odd values to [odds]. *)
Lemma partition_loop (k : Z) (arr evens odds : list Z) :
  k >= 1 ->
  for_each arr (evens, odds) (partition_step k) =
  Normal (evens ++ map (fun v => v mod k) (filter Z.even arr),
          odds ++ map (fun v => v mod k) (filter Z.odd arr)).
Proof.
  intros Hk. revert evens odds.
  induction arr as [| value arr IH]; intros evens odds; cbn [for_each].
  - simpl. rewrite !app_nil_r. reflexivity.
  - rewrite partition_step_eq by exact Hk.
    cbn [filter]. rewrite <- (Z.negb_odd value).
    destruct (Z.odd value); cbn [bind negb map];
      rewrite IH, <- app_assoc; reflexivity.
Qed.

Lemma remainders_in_range (k : Z) (l : list Z) :
  k >= 1 -> Forall (in_range k) (map (fun v => v mod k) l).
Proof.
  intros Hk. apply Forall_map, Forall_forall. intros v _.
  apply Z.mod_pos_bound. lia.
Qed.

(** One iteration of the search: without the early returns it yields a
    new [best] that is still a remainder, either the old one or the
    remainder of a pair; with them it yields the same value, or returns
    it when it is the cap [k - 1]. *)
Lemma search_step_cases (k : Z) (odds : list Z) (best even_rem : Z) :
  k >= 1 -> Forall (in_range k) odds -> in_range k even_rem ->
  0 <= best <= k - 1 ->
  exists best', search_step_no_early_return k odds best even_rem = Normal best' /\
    best <= best' <= k - 1 /\
    (search_step k odds (k - 1) best even_rem = Normal best' \/
     search_step k odds (k - 1) best even_rem = Return best' /\ best' = k - 1) /\
    (best' = best \/ exists o, In o odds /\ best' = (even_rem + o) mod k).
Proof.
  intros Hk Hodds [He0 Hek] Hbest.
  rewrite Forall_forall in Hodds.
  unfold search_step, search_step_no_early_return.
  destruct (bisect_left_spec odds (k - even_rem))
    as (idx & -> & Hidx & Hbelow & Habove).
  simpl. unfold mod_.
  destruct (Z.eqb_spec k 0) as [? | _]; [lia |].
  assert (Hprev : 0 < idx ->
            in_range k (nth (Z.to_nat (idx - 1)) odds 0) /\
            getitem odds (idx - 1) = Normal (nth (Z.to_nat (idx - 1)) odds 0)).
  { intros ?. split; [apply Hodds, nth_In_Z | apply getitem_nth]; lia. }
  assert (Hcur : idx < len odds ->
            getitem odds idx = Normal (nth (Z.to_nat idx) odds 0)).
  { intros ?. apply getitem_nth; lia. }
  pose proof (Z.mod_pos_bound (even_rem + nth (Z.to_nat idx) odds 0) k
                ltac:(lia)) as Hmod.
  rewrite (Z.gtb_ltb idx 0).
  destruct (Z.ltb_spec 0 idx) as [Hpos | Hzero];
    [destruct (Hprev Hpos) as [[Ho0 Hok] ->];
     assert (nth (Z.to_nat (idx - 1)) odds 0 < k - even_rem)
       by (destruct Hbelow; [lia | assumption]) |];
    (destruct (Z.ltb_spec idx (len odds)) as [Hlt | Hge];
     [rewrite (Hcur Hlt) |]);
    simpl; cases_cmp; simpl; cases_cmp; simpl;
    eexists; (split; [reflexivity |]); (split; [lia |]);
    (split;
     [ first [ left; reflexivity
             | right; split; [reflexivity | lia]
             | exfalso; lia ]
     | first [ left; reflexivity
             | right; exists (nth (Z.to_nat idx) odds 0);
               split; [apply nth_In_Z; lia | reflexivity]
             | right; exists (nth (Z.to_nat (idx - 1)) odds 0);
               split; [apply nth_In_Z; lia
                      | symmetry; apply Z.mod_small; lia] ] ]).
Qed.

(** The whole search loop, with and without the early returns. *)
Lemma search_loop_cases (k : Z) (odds evens : list Z) (best : Z) :
  k >= 1 -> Forall (in_range k) odds -> Forall (in_range k) evens ->
  0 <= best <= k - 1 ->
  exists final,
    for_each evens best (search_step_no_early_return k odds) = Normal final /\
    best <= final <= k - 1 /\
    (for_each evens best (search_step k odds (k - 1)) = Normal final \/
     for_each evens best (search_step k odds (k - 1)) = Return final) /\
    (final = best \/
     exists e o, In e evens /\ In o odds /\ final = (e + o) mod k).
Proof.
  intros Hk Hodds Hevens. revert best.
  induction Hevens as [| even_rem evens He _ IH]; intros best Hbest.
  - exists best. simpl. repeat split; auto; lia.
  - destruct (search_step_cases k odds best even_rem Hk Hodds He Hbest)
      as (best' & Hfull & Hrange & Hearly & Hpair).
    destruct (IH best' ltac:(lia))
      as (final & Hfinal & Hfrange & Hrest & Hpairs).
    exists final. cbn [for_each]. rewrite Hfull. cbn [bind].
    split; [exact Hfinal |]. split; [lia |]. split.
    + destruct Hearly as [-> | [-> Hcap]]; cbn [bind].
      * exact Hrest.
      * right. f_equal. lia.
    + destruct Hpairs as [-> | (e & o & He' & Ho & ->)].
      * destruct Hpair as [-> | (o & Ho & ->)]; [left; reflexivity |].
        right. exists even_rem, o. repeat split; simpl; auto.
      * right. exists e, o. repeat split; simpl; auto.
Qed.

Lemma in_pair_remainders (arr : list Z) (k e o : Z) :
  k >= 1 ->
  In e (sort (map (fun v => v mod k) (filter Z.even arr))) ->
  In o (sort (map (fun v => v mod k) (filter Z.odd arr))) ->
  In ((e + o) mod k) (pair_remainders arr k).
Proof.
  intros Hk He Ho.
  apply (Permutation_in _ (sort_perm _)), in_map_iff in He.
  apply (Permutation_in _ (sort_perm _)), in_map_iff in Ho.
  destruct He as (a & <- & Ha), Ho as (b & <- & Hb).
  rewrite <- Z.add_mod by lia.
  unfold pair_remainders. apply in_flat_map. exists a. split; [exact Ha |].
  apply in_map_iff. exists b. split; [reflexivity | exact Hb].
Qed.

(** What the function computes, for every modulus [k >= 1]: a value in
    [[0, k - 1]], the same with and without the early returns, which is
    0 or the remainder of some pair. *)
Lemma find_maximum_remainder_cases (n : Z) (arr : list Z) (k : Z) :
  k >= 1 ->
  exists v, find_maximum_remainder n arr k = Normal v /\
            find_maximum_remainder_no_early_return n arr k = Normal v /\
            0 <= v <= k - 1 /\
            (v = 0 \/ In v (pair_remainders arr k)).
Proof.
  intros Hk.
  unfold find_maximum_remainder, find_maximum_remainder_no_early_return.
  destruct (Z.eqb_spec k 1) as [-> | Hk1].
  - exists 0. simpl. repeat split; auto; lia.
  - rewrite partition_loop by exact Hk. cbn [bind app].
    destruct (search_loop_cases k
                (sort (map (fun v => v mod k) (filter Z.odd arr)))
                (sort (map (fun v => v mod k) (filter Z.even arr))) 0 Hk)
      as (final & Hfull & Hrange & Hearly & Hpairs);
      try (apply sort_Forall, remainders_in_range; exact Hk); try lia.
    exists final. rewrite Hfull. cbn [bind call].
    split; [| split; [reflexivity | split; [lia |]]].
    + destruct Hearly as [-> | ->]; reflexivity.
    + destruct Hpairs as [-> | (e & o & He & Ho & ->)]; [left; reflexivity |].
      right. apply in_pair_remainders; assumption.
Qed.

Lemma max_pair_remainder_upper (arr : list Z) (k v : Z) :
  v = 0 \/ In v (pair_remainders arr k) -> v <= max_pair_remainder arr k.
Proof.
  unfold max_pair_remainder. generalize (pair_remainders arr k) as l.
  induction l as [| r l IH]; simpl.
  - intros [-> | []]. lia.
  - intros [-> | [-> | Hin]].
    + specialize (IH (or_introl eq_refl)). lia.
    + lia.
    + specialize (IH (or_intror Hin)). lia.
Qed.

(** X1.  The function never overshoots: for [k >= 1] what it returns is
    0 or the remainder [(a + b) mod k] of an actual pair of an even and
    an odd element, hence at most the maximum over all such pairs. *)
Lemma find_maximum_remainder_sound (n : Z) (arr : list Z) (k : Z) :
  k >= 1 ->
  exists v, find_maximum_remainder n arr k = Normal v /\
            (v = 0 \/ In v (pair_remainders arr k)) /\
            v <= max_pair_remainder arr k.
Proof.
  intros Hk.
  destruct (find_maximum_remainder_cases n arr k Hk)
    as (v & Hv & _ & _ & Hpair).
  exists v. repeat split; auto using max_pair_remainder_upper.
Qed.

(** With no odd remainder to pair with, an iteration changes nothing. *)
Lemma search_step_no_odds (k target_best best even_rem : Z) :
  search_step k [] target_best best even_rem = Normal best.
Proof.
  unfold search_step.
  destruct (bisect_left_spec [] (k - even_rem)) as (idx & -> & Hidx & _).
  change (len (@nil Z)) with 0 in *. cbn [bind].
  rewrite (Z.gtb_ltb idx 0).
  destruct (Z.ltb_spec 0 idx); [lia |].
  destruct (Z.ltb_spec idx 0); [lia |].
  reflexivity.
Qed.

Lemma search_loop_no_odds (k target_best : Z) (evens : list Z) (best : Z) :
  for_each evens best (search_step k [] target_best) = Normal best.
Proof.
  induction evens as [| even_rem evens IH]; cbn [for_each]; [reflexivity |].
  rewrite search_step_no_odds. exact IH.
Qed.

(** C1 (the code falls short of the claim).  The claim asks for the
    maximum of [(a + b) mod k] over all pairs of an even [a] and an odd
    [b].  On [arr = [8; 3; 9]] with [k = 10] the pairs give
    [(8 + 3) mod 10 = 1] and [(8 + 9) mod 10 = 7], so the maximum is 7,
    but the function returns 1: when every odd remainder wraps around it
    tries only the smallest one. *)
Theorem find_maximum_remainder_misses_wrapped_pair :
  find_maximum_remainder 3 [8; 3; 9] 10 = Normal 1 /\
  max_pair_remainder [8; 3; 9] 10 = 7.
Proof. split; vm_compute; reflexivity. Qed.

(** C3.  For every array and every modulus [k >= 1] the function returns
    a value, and that value lies in [[0, k - 1]]. *)
Theorem find_maximum_remainder_in_range (n : Z) (arr : list Z) (k : Z) :
  k >= 1 ->
  exists v, find_maximum_remainder n arr k = Normal v /\ 0 <= v <= k - 1.
Proof.
  intros Hk.
  destruct (find_maximum_remainder_cases n arr k Hk)
    as (v & Hv & _ & Hr & _).
  exists v. split; assumption.
Qed.

Lemma find_maximum_remainder_in_range_witness :
  3 >= 1 /\
  exists v, find_maximum_remainder 5 [1; 2; 3; 4; 5] 3 = Normal v /\
            0 <= v <= 3 - 1.
Proof.
  split; [lia |].
  apply (find_maximum_remainder_in_range 5 [1; 2; 3; 4; 5] 3). lia.
Defined.

(** C4.  For every array and every [k >= 2], returning as soon as
    [best == k - 1] gives the same result as running the loop over all
    of [evens] with no early return. *)
Theorem early_return_preserves_result (n : Z) (arr : list Z) (k : Z) :
  k >= 2 ->
  find_maximum_remainder n arr k =
  find_maximum_remainder_no_early_return n arr k.
Proof.
  intros Hk.
  destruct (find_maximum_remainder_cases n arr k ltac:(lia))
    as (v & Hearly & Hfull & _).
  rewrite Hearly, Hfull.
  reflexivity.
Qed.

Lemma early_return_preserves_result_witness :
  4 >= 2 /\
  find_maximum_remainder 4 [2; 1; 6; 5] 4 =
  find_maximum_remainder_no_early_return 4 [2; 1; 6; 5] 4.
Proof.
  split; [lia |].
  apply (early_return_preserves_result 4 [2; 1; 6; 5] 4). lia.
Defined.

(** C5.  The function returns 0 when [k == 1], whatever the array, and,
    for every [k >= 1], when the array has no even element or no odd
    element (the empty array included). *)
Theorem find_maximum_remainder_zero :
  (forall n arr, find_maximum_remainder n arr 1 = Normal 0) /\
  (forall n arr k,
      k >= 1 ->
      Forall (fun a => Z.even a = false) arr \/
      Forall (fun a => Z.odd a = false) arr ->
      find_maximum_remainder n arr k = Normal 0).
Proof.
  split; [reflexivity |].
  intros n arr k Hk Hparity. unfold find_maximum_remainder.
  destruct (Z.eqb_spec k 1); [reflexivity |].
  rewrite partition_loop by exact Hk. cbn [bind app].
  destruct Hparity as [Hno_even | Hno_odd].
  - rewrite (filter_nothing Z.even)
      by (apply Forall_forall; exact Hno_even).
    reflexivity.
  - rewrite (filter_nothing Z.odd)
      by (apply Forall_forall; exact Hno_odd).
    cbn [map sort].
    rewrite search_loop_no_odds. reflexivity.
Qed.

Lemma find_maximum_remainder_zero_witness :
  find_maximum_remainder 3 [4; 7; 9] 1 = Normal 0 /\
  find_maximum_remainder 3 [2; 4; 6] 5 = Normal 0 /\
  find_maximum_remainder 3 [1; 3; 5] 5 = Normal 0 /\
  find_maximum_remainder 0 [] 5 = Normal 0.
Proof.
  split; [| split; [| split]].
  - apply (proj1 find_maximum_remainder_zero).
  - apply (proj2 find_maximum_remainder_zero 3 [2; 4; 6] 5); [lia |].
    right. repeat constructor.
  - apply (proj2 find_maximum_remainder_zero 3 [1; 3; 5] 5); [lia |].
    left. repeat constructor.
  - apply (proj2 find_maximum_remainder_zero 0 [] 5); [lia |].
    left. constructor.
Defined.

(** C8.  For every [k >= 1], at every point of the partitioning loop
    (after any prefix [pre] of the array has been processed) every
    remainder appended so far to [evens] and to [odds] lies in [[0, k)],
    and it still does after both lists are sorted. *)
Theorem partition_remainders_in_range (k : Z) (arr : list Z) :
  k >= 1 ->
  forall pre post, arr = pre ++ post ->
  exists evens odds,
    for_each pre ([], []) (partition_step k) = Normal (evens, odds) /\
    for_each arr ([], []) (partition_step k) =
      for_each post (evens, odds) (partition_step k) /\
    Forall (in_range k) evens /\ Forall (in_range k) odds /\
    Forall (in_range k) (sort evens) /\ Forall (in_range k) (sort odds).
Proof.
  intros Hk pre post ->.
  exists (map (fun v => v mod k) (filter Z.even pre)),
         (map (fun v => v mod k) (filter Z.odd pre)).
  rewrite for_each_app, (partition_loop k pre) by exact Hk.
  repeat split; try reflexivity;
    try apply sort_Forall; apply remainders_in_range; exact Hk.
Qed.

Lemma partition_remainders_in_range_witness :
  exists evens odds,
    for_each [-3; 4] ([], []) (partition_step 5) = Normal (evens, odds) /\
    for_each [-3; 4; 7; 10] ([], []) (partition_step 5) =
      for_each [7; 10] (evens, odds) (partition_step 5) /\
    Forall (in_range 5) evens /\ Forall (in_range 5) odds /\
    Forall (in_range 5) (sort evens) /\ Forall (in_range 5) (sort odds).
Proof.
  apply (partition_remainders_in_range 5 [-3; 4; 7; 10]);
    [lia | reflexivity].
Defined.

(** C10.  For every array and every [k >= 1] the function runs to a
    value: no modulus divides by zero and no list access is out of
    bounds, so no exception reaches the caller. *)
Theorem find_maximum_remainder_no_error (n : Z) (arr : list Z) (k : Z) :
  k >= 1 ->
  (exists v, find_maximum_remainder n arr k = Normal v) /\
  (forall e, find_maximum_remainder n arr k <> Raise e).
Proof.
  intros Hk.
  destruct (find_maximum_remainder_cases n arr k Hk) as (v & Hv & _).
  split; [exists v; exact Hv |].
  intros e. rewrite Hv. discriminate.
Qed.

Lemma find_maximum_remainder_no_error_witness :
  7 >= 1 /\
  (exists v, find_maximum_remainder 4 [-5; 12; 3; 8] 7 = Normal v) /\
  (forall e, find_maximum_remainder 4 [-5; 12; 3; 8] 7 <> Raise e).
Proof.
  split; [lia |].
  apply (find_maximum_remainder_no_error 4 [-5; 12; 3; 8] 7). lia.
Defined.

End MaxRemainderFacts.

(** ** count_special_ranges *)

Module SpecialRangesFacts.
Import Py PyFacts SpecialRanges.

(** The [while] loop, one iteration unfolded. *)
Lemma shrink_unfold (binary : list Z) (limit current left_ : Z) :
  shrink binary limit current left_ =
  if current >? limit
  then v <- getitem binary left_ ;; shrink binary limit (current - v) (left_ + 1)
  else Normal (current, left_).
Proof.
  funelim (shrink binary limit current left_);
    try match goal with Hc : (_ >? _) = _ |- _ => rewrite Hc end;
    try match goal with Hg : getitem _ _ = _ |- _ => rewrite Hg end;
    reflexivity.
Qed.

(** *** Sums of flags *)

Lemma sumZ_app (l1 l2 : list Z) : sumZ (l1 ++ l2) = sumZ l1 + sumZ l2.
Proof.
  unfold sumZ. induction l1 as [| x l1 IH]; simpl; [reflexivity |].
  rewrite IH. lia.
Qed.

Lemma prefix_sum_mono (binary : list Z) (m1 m2 : nat) :
  Forall (fun b => 0 <= b) binary -> (m1 <= m2)%nat ->
  prefix_sum binary m1 <= prefix_sum binary m2.
Proof.
  unfold prefix_sum, sumZ. intros Hnonneg. revert m1 m2.
  induction Hnonneg as [| b binary Hb _ IH]; intros m1 m2 Hle.
  - rewrite !firstn_nil. lia.
  - destruct m1 as [| m1], m2 as [| m2]; simpl; try lia.
    + specialize (IH 0%nat m2 ltac:(lia)). simpl in IH. lia.
    + specialize (IH m1 m2 ltac:(lia)). lia.
Qed.

Lemma prefix_sum_S (binary : list Z) (m : nat) :
  (m < List.length binary)%nat ->
  prefix_sum binary (S m) = prefix_sum binary m + nth m binary 0.
Proof.
  unfold prefix_sum, sumZ. revert m.
  induction binary as [| b binary IH]; intros m Hm; simpl in Hm; [lia |].
  destruct m as [| m]; [simpl; lia |].
  change (firstn (S (S m)) (b :: binary)) with (b :: firstn (S m) binary).
  change (firstn (S m) (b :: binary)) with (b :: firstn m binary).
  cbn [fold_right nth]. rewrite IH by lia. lia.
Qed.

Lemma prefix_sum_le_length (binary : list Z) (m : nat) :
  Forall (fun b => b <= 1) binary ->
  prefix_sum binary m <= Z.of_nat (List.length binary).
Proof.
  unfold prefix_sum, sumZ. intros Hle. revert m.
  induction Hle as [| b binary Hb _ IH]; intros m.
  - rewrite firstn_nil. simpl. lia.
  - destruct m as [| m]; cbn [firstn fold_right List.length]; [lia |].
    specialize (IH m). lia.
Qed.

(** A window is the difference of two prefixes. *)
Lemma window_sum_prefix (binary : list Z) (i j : nat) :
  (i <= S j)%nat ->
  window_sum binary i j = prefix_sum binary (S j) - prefix_sum binary i.
Proof.
  intros Hij. unfold window_sum, prefix_sum.
  rewrite <- (firstn_skipn i (firstn (S j) binary)) at 1.
  rewrite sumZ_app, firstn_firstn, Nat.min_l by lia.
  rewrite firstn_skipn_comm.
  replace (i + (S j - i))%nat with (S j) by lia.
  lia.
Qed.

(** *** Counting over position pairs *)

Lemma substrings_S (n : nat) :
  substrings (S n) = substrings n ++ map (fun i => (i, n)) (seq 0 (S n)).
Proof.
  unfold substrings. rewrite (seq_S n 0) at 1. rewrite flat_map_app.
  cbn [flat_map Nat.add]. rewrite app_nil_r. reflexivity.
Qed.

Lemma substrings_length (n : nat) :
  2 * Z.of_nat (List.length (substrings n)) = Z.of_nat n * (Z.of_nat n + 1).
Proof.
  induction n as [| n IH]; [reflexivity |].
  rewrite substrings_S, length_app, length_map, length_seq. lia.
Qed.

Lemma in_substrings (n i j : nat) :
  In (i, j) (substrings n) <-> (i <= j < n)%nat.
Proof.
  unfold substrings. rewrite in_flat_map. split.
  - intros (j' & Hj' & Hin). apply in_map_iff in Hin.
    destruct Hin as (i' & [= <- <-] & Hi').
    apply in_seq in Hj'. apply in_seq in Hi'. lia.
  - intros Hij. exists j. split; [apply in_seq; lia |].
    apply in_map_iff. exists i. split; [reflexivity | apply in_seq; lia].
Qed.

Lemma substrings_NoDup (n : nat) : NoDup (substrings n).
Proof.
  induction n as [| n IH]; [constructor |].
  rewrite substrings_S. apply NoDup_app; [exact IH | |].
  - apply NoDup_map_NoDup_ForallPairs; [| apply seq_NoDup].
    intros i i' _ _ [= ->]. reflexivity.
  - intros [i j] Hold Hnew. apply in_substrings in Hold.
    apply in_map_iff in Hnew. destruct Hnew as (i' & [= _ ->] & _). lia.
Qed.

(** Membership in [special_set] is membership among the characters of
    [specials]. *)
Lemma is_special_In (specials : str) (ch : char) :
  is_special specials ch = true <-> In ch specials.
Proof.
  unfold is_special, special_set. rewrite existsb_exists. split.
  - intros (c & Hin & Heq). apply N.eqb_eq in Heq. subst. exact Hin.
  - intros Hin. exists ch. split; [exact Hin | apply N.eqb_refl].
Qed.

(** A predicate that is false below [t] and true from [t] on holds for
    [n - t] of the first [n] positions. *)
Lemma filter_threshold (f : nat -> bool) (n t : nat) :
  (t <= n)%nat ->
  (forall i, (i < t)%nat -> f i = false) ->
  (forall i, (t <= i < n)%nat -> f i = true) ->
  List.length (filter f (seq 0 n)) = (n - t)%nat.
Proof.
  intros Htn Hbelow Hfrom.
  replace n with (t + (n - t))%nat at 1 by lia.
  rewrite seq_app, filter_app, length_app.
  rewrite filter_nothing, filter_all; cbn [List.length Nat.add].
  - apply length_seq.
  - intros i Hi. apply in_seq in Hi. apply Hfrom. lia.
  - intros i Hi. apply in_seq in Hi. apply Hbelow. lia.
Qed.

(** *** The two-pointer scan *)

Section Scan.

Variable binary : list Z.
Variable limit : Z.
Hypothesis binary_nonneg : Forall (fun b => 0 <= b) binary.
Hypothesis limit_nonneg : 0 <= limit.

Local Abbreviation psum := (prefix_sum binary).
Local Abbreviation fits := (fun '(i, j) => window_sum binary i j <=? limit).

(** Started on the window [[l, r)] whose left neighbour already exceeds
    the limit, the [while] loop stops at the least [l'] whose window fits. *)
Lemma shrink_spec (r l : nat) :
  (l <= r <= List.length binary)%nat ->
  ((0 < l)%nat -> limit < psum r - psum (l - 1)) ->
  exists l',
    shrink binary limit (psum r - psum l) (Z.of_nat l) =
      Normal (psum r - psum l', Z.of_nat l') /\
    (l <= l' <= r)%nat /\
    psum r - psum l' <= limit /\
    ((0 < l')%nat -> limit < psum r - psum (l' - 1)).
Proof.
  remember (r - l)%nat as d eqn:Hd. revert l Hd.
  induction d as [| d IH]; intros l Hd Hlr Hleft; rewrite shrink_unfold;
    rewrite Z.gtb_ltb; destruct (Z.ltb_spec limit (psum r - psum l)) as [Hgt | Hle];
    try (exists l; repeat split; auto; lia).
  - replace l with r in Hgt by lia. lia.
  - rewrite getitem_nth by (unfold len; lia). rewrite Nat2Z.id. cbn [bind].
    replace (psum r - psum l - nth l binary 0) with (psum r - psum (S l))
      by (rewrite prefix_sum_S; lia).
    replace (Z.of_nat l + 1) with (Z.of_nat (S l)) by lia.
    destruct (IH (S l)) as (l' & Hrun & Hl' & Hfit & Hprev); try lia.
    + intros _. replace (S l - 1)%nat with l by lia. exact Hgt.
    + exists l'. repeat split; auto; lia.
Qed.

(** Among the windows ending at [r], exactly those starting at [l'] or
    later fit. *)
Lemma windows_ending_at (r l' : nat) :
  (l' <= S r)%nat ->
  psum (S r) - psum l' <= limit ->
  ((0 < l')%nat -> limit < psum (S r) - psum (l' - 1)) ->
  List.length (filter fits (map (fun i => (i, r)) (seq 0 (S r)))) = (S r - l')%nat.
Proof.
  intros Hl' Hfit Hprev.
  rewrite filter_map_swap, length_map.
  apply filter_threshold; [exact Hl' | |]; intros i Hi;
    rewrite window_sum_prefix by lia.
  - apply Z.leb_gt.
    pose proof (prefix_sum_mono binary i (l' - 1) binary_nonneg ltac:(lia)).
    specialize (Hprev ltac:(lia)). lia.
  - apply Z.leb_le.
    pose proof (prefix_sum_mono binary l' i binary_nonneg ltac:(lia)).
    lia.
Qed.

(** Number of fitting windows that end before position [m]. *)
Local Abbreviation fitting m :=
  (Z.of_nat (List.length (filter fits (substrings m)))).

(** The [for] loop resumed after the prefix [pre]: it adds to [total] the
    number of fitting windows that end in the rest of the sequence. *)
Lemma count_loop (post pre : list Z) (l : nat) (total : Z) :
  binary = pre ++ post ->
  (l <= List.length pre)%nat ->
  psum (List.length pre) - psum l <= limit ->
  ((0 < l)%nat -> limit < psum (List.length pre) - psum (l - 1)) ->
  exists current' left',
    for_each (enumerate_from (Z.of_nat (List.length pre)) post)
             (total, psum (List.length pre) - psum l, Z.of_nat l)
             (count_step binary limit) =
    Normal (total + (fitting (List.length binary) - fitting (List.length pre)),
            current', left').
Proof.
  revert pre l total.
  induction post as [| val post IH]; intros pre l total Hsplit Hl Hfit Hprev.
  - assert (List.length binary = List.length pre) as ->
      by (rewrite Hsplit, app_nil_r; reflexivity).
    cbn [enumerate_from for_each]. do 2 eexists.
    rewrite Z.sub_diag, Z.add_0_r. reflexivity.
  - set (r := List.length pre) in *.
    assert (Hr : (r < List.length binary)%nat)
      by (rewrite Hsplit, length_app; cbn [List.length]; lia).
    assert (Hval : nth r binary 0 = val)
      by (rewrite Hsplit; apply nth_middle).
    cbn [enumerate_from for_each]. unfold count_step at 1.
    replace (psum r - psum l + val) with (psum (S r) - psum l)
      by (rewrite prefix_sum_S, Hval; lia).
    destruct (shrink_spec (S r) l) as (l' & -> & Hl' & Hfit' & Hprev');
      [lia | |].
    { intros Hpos. specialize (Hprev Hpos).
      pose proof (prefix_sum_mono binary r (S r) binary_nonneg ltac:(lia)).
      lia. }
    cbn [bind].
    assert (Hlen : List.length (pre ++ [val]) = S r)
      by (rewrite length_app; cbn [List.length]; lia).
    destruct (IH (pre ++ [val]) l' (total + (Z.of_nat r - Z.of_nat l' + 1)))
      as (current' & left' & Hrun).
    + rewrite <- app_assoc. exact Hsplit.
    + lia.
    + rewrite Hlen. exact Hfit'.
    + rewrite Hlen. exact Hprev'.
    + rewrite Hlen in Hrun.
      replace (Z.of_nat r + 1) with (Z.of_nat (S r)) by lia.
      rewrite Hrun. exists current', left'. do 3 f_equal.
      rewrite (substrings_S r), filter_app, length_app.
      rewrite (windows_ending_at r l') by (auto; lia).
      lia.
Qed.

(** The scan counts the fitting windows. *)
Lemma count_at_most_nonneg_limit :
  count_at_most binary limit = Normal (windows_at_most binary limit).
Proof.
  unfold count_at_most, enumerate.
  destruct (Z.ltb_spec limit 0); [lia |].
  destruct (count_loop binary [] 0%nat 0) as (current' & left' & Hrun);
    try reflexivity; cbn [List.length]; try lia;
    try (change (psum 0) with 0; lia).
  cbn [List.length] in Hrun. change (psum 0 - psum 0) with 0 in Hrun.
  change (Z.of_nat 0) with 0 in Hrun.
  rewrite Hrun. cbn [bind call]. f_equal. unfold windows_at_most.
  change (substrings 0) with (@nil (nat * nat)). cbn [filter List.length].
  lia.
Qed.

End Scan.

(** *** The reference count *)

Lemma window_sum_nonneg (binary : list Z) (i j : nat) :
  Forall (fun b => 0 <= b) binary -> 0 <= window_sum binary i j.
Proof.
  intros Hnonneg. destruct (Nat.le_gt_cases i (S j)) as [Hij | Hij].
  - rewrite window_sum_prefix by exact Hij.
    pose proof (prefix_sum_mono binary i (S j) Hnonneg Hij). lia.
  - unfold window_sum. replace (S j - i)%nat with 0%nat by lia.
    reflexivity.
Qed.

Lemma window_sum_le_length (binary : list Z) (i j : nat) :
  Forall (fun b => 0 <= b) binary -> Forall (fun b => b <= 1) binary ->
  window_sum binary i j <= Z.of_nat (List.length binary).
Proof.
  intros Hnonneg Hle. destruct (Nat.le_gt_cases i (S j)) as [Hij | Hij].
  - rewrite window_sum_prefix by exact Hij.
    pose proof (prefix_sum_le_length binary (S j) Hle).
    pose proof (prefix_sum_mono binary 0 i Hnonneg ltac:(lia)) as H0.
    change (prefix_sum binary 0) with 0 in H0. lia.
  - unfold window_sum. replace (S j - i)%nat with 0%nat by lia.
    cbn. lia.
Qed.

Lemma filter_length_mono {A : Type} (f g : A -> bool) (l : list A) :
  (forall a, f a = true -> g a = true) ->
  (List.length (filter f l) <= List.length (filter g l))%nat.
Proof.
  intros Himp. induction l as [| a l IH]; simpl; [lia |].
  destruct (f a) eqn:Hf.
  - rewrite (Himp a Hf). simpl. lia.
  - destruct (g a); simpl; lia.
Qed.

Lemma windows_at_most_mono (binary : list Z) (limit1 limit2 : Z) :
  limit1 <= limit2 ->
  windows_at_most binary limit1 <= windows_at_most binary limit2.
Proof.
  intros Hle. unfold windows_at_most. apply inj_le, filter_length_mono.
  intros [i j] Hfit. apply Z.leb_le in Hfit. apply Z.leb_le. lia.
Qed.

Lemma windows_at_most_negative (binary : list Z) (limit : Z) :
  Forall (fun b => 0 <= b) binary -> limit < 0 ->
  windows_at_most binary limit = 0.
Proof.
  intros Hnonneg Hneg. unfold windows_at_most.
  rewrite filter_nothing; [reflexivity |].
  intros [i j] _. apply Z.leb_gt.
  pose proof (window_sum_nonneg binary i j Hnonneg). lia.
Qed.

Lemma windows_at_most_all (binary : list Z) :
  Forall (fun b => 0 <= b) binary -> Forall (fun b => b <= 1) binary ->
  2 * windows_at_most binary (len binary) = len binary * (len binary + 1).
Proof.
  intros Hnonneg Hle. unfold windows_at_most, len.
  rewrite filter_all; [apply substrings_length |].
  intros [i j] _. apply Z.leb_le. apply window_sum_le_length; assumption.
Qed.

(** Windows whose sum lies in [[lower, upper]], by difference. *)
Lemma count_between {A : Type} (c : A -> Z) (lower upper : Z) (l : list A) :
  lower <= upper + 1 ->
  Z.of_nat (List.length
    (filter (fun a => (lower <=? c a) && (c a <=? upper)) l)) =
  Z.of_nat (List.length (filter (fun a => c a <=? upper) l)) -
  Z.of_nat (List.length (filter (fun a => c a <=? lower - 1) l)).
Proof.
  intros Hle. induction l as [| a l IH]; [reflexivity |].
  cbn [filter].
  destruct (Z.leb_spec lower (c a)), (Z.leb_spec (c a) upper),
    (Z.leb_spec (c a) (lower - 1));
    cbn [andb List.length]; lia.
Qed.

(** *** The scan meets the reference count *)

Lemma count_at_most_negative (binary : list Z) (limit : Z) :
  limit < 0 -> count_at_most binary limit = Normal 0.
Proof.
  intros Hneg. unfold count_at_most.
  destruct (Z.ltb_spec limit 0); [reflexivity | lia].
Qed.

Lemma count_at_most_spec (binary : list Z) (limit : Z) :
  Forall (fun b => 0 <= b) binary ->
  count_at_most binary limit = Normal (windows_at_most binary limit).
Proof.
  intros Hnonneg. destruct (Z.lt_ge_cases limit 0) as [Hneg | Hpos].
  - rewrite count_at_most_negative, windows_at_most_negative; auto.
  - apply count_at_most_nonneg_limit; assumption.
Qed.

(** *** From the strings to the flags *)

Lemma binary_of_flags (types specials : str) :
  Forall (fun b => b = 0 \/ b = 1) (binary_of types specials).
Proof.
  unfold binary_of. apply Forall_map, Forall_forall. intros ch _.
  destruct (is_special specials ch); auto.
Qed.

Lemma flags_nonneg (binary : list Z) :
  Forall (fun b => b = 0 \/ b = 1) binary -> Forall (fun b => 0 <= b) binary.
Proof. apply Forall_impl. intros b [-> | ->]; lia. Qed.

Lemma flags_le_1 (binary : list Z) :
  Forall (fun b => b = 0 \/ b = 1) binary -> Forall (fun b => b <= 1) binary.
Proof. apply Forall_impl. intros b [-> | ->]; lia. Qed.

Lemma binary_of_length (types specials : str) :
  List.length (binary_of types specials) = List.length types.
Proof. unfold binary_of. apply length_map. Qed.

Lemma sumZ_flags (f : char -> bool) (l : list char) :
  sumZ (map (fun ch => if f ch then 1 else 0) l) =
  Z.of_nat (List.length (filter f l)).
Proof.
  unfold sumZ. induction l as [| ch l IH]; [reflexivity |].
  cbn [map fold_right filter]. rewrite IH.
  destruct (f ch); cbn [List.length]; lia.
Qed.

Lemma window_sum_binary_of (types specials : str) (i j : nat) :
  window_sum (binary_of types specials) i j = special_count types specials i j.
Proof.
  unfold window_sum, binary_of, special_count.
  rewrite skipn_map, firstn_map. apply sumZ_flags.
Qed.

(** The value of the function, in terms of the reference count. *)
Lemma count_special_ranges_value (n k lower upper : Z)
  (types specials : str) :
  count_special_ranges n k lower upper types specials =
  Normal (windows_at_most (binary_of types specials) upper -
          windows_at_most (binary_of types specials) (lower - 1)).
Proof.
  unfold count_special_ranges.
  pose proof (flags_nonneg _ (binary_of_flags types specials)) as Hnonneg.
  cbv zeta. rewrite !count_at_most_spec by exact Hnonneg.
  reflexivity.
Qed.

(** C2.  For all strings [types] and [specials] (sequences of code
    points, of any alphabet) and all integers
    [lower <= upper], the function returns the number of contiguous
    substrings of [types] (position pairs [i <= j]) whose count of
    characters belonging to [specials] lies in [[lower, upper]], as found
    by enumerating every substring. *)
Theorem count_special_ranges_correct (n k lower upper : Z)
  (types specials : str) :
  lower <= upper ->
  count_special_ranges n k lower upper types specials =
  Normal (brute_force lower upper types specials).
Proof.
  intros Hle. rewrite count_special_ranges_value. f_equal.
  unfold brute_force, windows_at_most. rewrite binary_of_length.
  set (c := fun p : nat * nat =>
              let '(i, j) := p in window_sum (binary_of types specials) i j).
  rewrite (filter_ext
             (fun '(i, j) =>
                let count := special_count types specials i j in
                (lower <=? count) && (count <=? upper))
             (fun p => (lower <=? c p) && (c p <=? upper)))
    by (intros [i j]; unfold c; rewrite window_sum_binary_of; reflexivity).
  rewrite count_between by lia.
  f_equal; do 2 f_equal; apply filter_ext; intros [i j]; reflexivity.
Qed.

Lemma count_special_ranges_correct_witness :
  1 <= 2 /\
  count_special_ranges 5 2 1 2 [955; 956; 99; 955; 956]%N [955; 956]%N =
  Normal (brute_force 1 2 [955; 956; 99; 955; 956]%N [955; 956]%N).
Proof.
  split; [lia |].
  apply (count_special_ranges_correct 5 2 1 2
           [955; 956; 99; 955; 956]%N [955; 956]%N).
  lia.
Defined.

(** C6.  With [lower = 0] and [upper = len(types)] the function returns
    [len(types) * (len(types) + 1) / 2], the number of all contiguous
    substrings of [types]. *)
Theorem count_special_ranges_all (n k : Z) (types specials : str) :
  count_special_ranges n k 0 (len types) types specials =
  Normal (len types * (len types + 1) / 2).
Proof.
  rewrite count_special_ranges_value.
  pose proof (binary_of_flags types specials) as Hflags.
  rewrite (windows_at_most_negative _ (0 - 1))
    by (auto using flags_nonneg; lia).
  pose proof (windows_at_most_all (binary_of types specials)
                (flags_nonneg _ Hflags) (flags_le_1 _ Hflags)) as Hall.
  unfold len in Hall at 1 2 3. rewrite binary_of_length in Hall.
  fold (len types) in Hall.
  rewrite <- Hall, Z.sub_0_r, Z.mul_comm, Z.div_mul by lia.
  reflexivity.
Qed.

(** C7.  On every sequence of 0/1 flags, [count_at_most] is monotone in
    its limit: for [limit1 <= limit2] both calls return, and the first
    result is at most the second; and it returns 0 for every negative
    limit. *)
Theorem count_at_most_monotone (binary : list Z) :
  Forall (fun b => b = 0 \/ b = 1) binary ->
  (forall limit1 limit2,
      limit1 <= limit2 ->
      exists v1 v2,
        count_at_most binary limit1 = Normal v1 /\
        count_at_most binary limit2 = Normal v2 /\
        v1 <= v2) /\
  (forall limit, limit < 0 -> count_at_most binary limit = Normal 0).
Proof.
  intros Hflags. apply flags_nonneg in Hflags. split.
  - intros limit1 limit2 Hle.
    exists (windows_at_most binary limit1), (windows_at_most binary limit2).
    rewrite !count_at_most_spec by exact Hflags.
    repeat split. apply windows_at_most_mono. exact Hle.
  - intros limit. apply count_at_most_negative.
Qed.

Lemma count_at_most_monotone_witness :
  (exists v1 v2,
      count_at_most [1; 1; 0; 1; 1] 1 = Normal v1 /\
      count_at_most [1; 1; 0; 1; 1] 2 = Normal v2 /\
      v1 <= v2) /\
  count_at_most [1; 1; 0; 1; 1] (-1) = Normal 0.
Proof.
  assert (Hflags : Forall (fun b => b = 0 \/ b = 1) [1; 1; 0; 1; 1])
    by (repeat constructor; auto).
  split.
  - apply (proj1 (count_at_most_monotone [1; 1; 0; 1; 1] Hflags) 1 2). lia.
  - apply (proj2 (count_at_most_monotone [1; 1; 0; 1; 1] Hflags) (-1)). lia.
Defined.

End SpecialRangesFacts.

(** ** The unused parameters *)

Module Noninterference.
Import MaxRemainder SpecialRanges.

(** C9.  The parameters that the functions accept but never read do not
    influence the results: two runs of [find_maximum_remainder] that
    differ only in [n] agree, and two runs of [count_special_ranges]
    that differ only in [n] and [k] agree. *)
Theorem unused_parameters_do_not_matter :
  (forall n1 n2 arr k,
      find_maximum_remainder n1 arr k = find_maximum_remainder n2 arr k) /\
  (forall n1 n2 k1 k2 lower upper types specials,
      count_special_ranges n1 k1 lower upper types specials =
      count_special_ranges n2 k2 lower upper types specials).
Proof. split; reflexivity. Qed.

End Noninterference.

(** ** find_maximum_remainder: moduli outside the contract, and what the
    result depends on *)

Module MaxRemainderBehaviour.
Import Py PyFacts MaxRemainder MaxRemainderFacts.

(** *** [k = 0] and [k < 0] *)

Lemma partition_zero_modulus (value : Z) (arr : list Z)
  (st : list Z * list Z) :
  for_each (value :: arr) st (partition_step 0) = Raise ZeroDivisionError.
Proof. destruct st as [evens odds]. reflexivity. Qed.

Lemma zero_modulus_raises (n value : Z) (arr : list Z) :
  find_maximum_remainder n (value :: arr) 0 = Raise ZeroDivisionError.
Proof.
  unfold find_maximum_remainder. change (0 =? 1) with false. cbv iota.
  rewrite partition_zero_modulus. reflexivity.
Qed.

Lemma empty_array_value (n k : Z) : find_maximum_remainder n [] k = Normal 0.
Proof.
  unfold find_maximum_remainder. destruct (k =? 1); reflexivity.
Qed.

(** With a negative modulus no stored remainder is positive. *)
Lemma partition_step_negative (k : Z) (evens odds : list Z) (value : Z) :
  k < 0 ->
  exists r, r <= 0 /\
    partition_step k (evens, odds) value =
    Normal (if Z.odd value then (evens, odds ++ [r]) else (evens ++ [r], odds)).
Proof.
  intros Hk. unfold partition_step, mod_.
  destruct (Z.eqb_spec k 0); [lia |]. cbn [bind].
  pose proof (Z.mod_neg_bound value k Hk) as Hr.
  rewrite land_1_parity.
  exists (if value mod k <? 0 then value mod k + k else value mod k).
  split; [destruct (Z.ltb_spec (value mod k) 0); lia |].
  destruct (Z.odd value); reflexivity.
Qed.

Lemma partition_loop_negative (k : Z) (arr evens odds : list Z) :
  k < 0 ->
  Forall (fun r => r <= 0) evens -> Forall (fun r => r <= 0) odds ->
  exists evens' odds',
    for_each arr (evens, odds) (partition_step k) = Normal (evens', odds') /\
    Forall (fun r => r <= 0) evens' /\ Forall (fun r => r <= 0) odds'.
Proof.
  intros Hk. revert evens odds.
  induction arr as [| value arr IH]; intros evens odds Hev Hod.
  - exists evens, odds. repeat split; assumption.
  - cbn [for_each].
    destruct (partition_step_negative k evens odds value Hk) as (r & Hr & ->).
    cbn [bind].
    destruct (Z.odd value); apply IH; auto;
      apply Forall_app; split; auto.
Qed.

(** With nothing positive to add up, an iteration leaves [best = 0]. *)
Lemma search_step_negative (k target_best : Z) (odds : list Z) (even_rem : Z) :
  k < 0 -> Forall (fun r => r <= 0) odds -> even_rem <= 0 ->
  search_step k odds target_best 0 even_rem = Normal 0.
Proof.
  intros Hk Hodds He. rewrite Forall_forall in Hodds.
  unfold search_step.
  destruct (bisect_left_spec odds (k - even_rem)) as (idx & -> & Hidx & _).
  cbn [bind]. unfold mod_.
  destruct (Z.eqb_spec k 0) as [? | _]; [lia |].
  pose proof (Z.mod_neg_bound (even_rem + nth (Z.to_nat idx) odds 0) k Hk)
    as Hmod.
  rewrite (Z.gtb_ltb idx 0).
  destruct (Z.ltb_spec 0 idx) as [Hpos | Hzero];
    [rewrite (getitem_nth odds (idx - 1)) by lia;
     pose proof (Hodds _ (nth_In_Z odds (idx - 1) ltac:(lia))) |];
    (destruct (Z.ltb_spec idx (len odds)) as [Hlt | Hge];
     [rewrite (getitem_nth odds idx) by lia |]);
    simpl; cases_cmp; simpl; cases_cmp; simpl;
    first [reflexivity | exfalso; lia].
Qed.

Lemma search_loop_negative (k target_best : Z) (odds evens : list Z) :
  k < 0 -> Forall (fun r => r <= 0) odds -> Forall (fun r => r <= 0) evens ->
  for_each evens 0 (search_step k odds target_best) = Normal 0.
Proof.
  intros Hk Hodds Hevens.
  induction Hevens as [| even_rem evens He _ IH]; cbn [for_each];
    [reflexivity |].
  rewrite search_step_negative by assumption. exact IH.
Qed.

Lemma negative_modulus_value (n : Z) (arr : list Z) (k : Z) :
  k < 0 -> find_maximum_remainder n arr k = Normal 0.
Proof.
  intros Hk. unfold find_maximum_remainder.
  destruct (Z.eqb_spec k 1); [lia |].
  destruct (partition_loop_negative k arr [] [] Hk)
    as (evens & odds & -> & Hev & Hod); try constructor.
  cbn [bind]. cbv zeta.
  rewrite search_loop_negative; auto using sort_Forall.
Qed.

(** *** What the result depends on *)

Lemma filter_perm {A : Type} (f : A -> bool) (l l' : list A) :
  Permutation l l' -> Permutation (filter f l) (filter f l').
Proof.
  induction 1 as [| x l l' _ IH | x y l | l l' l'' _ IH1 _ IH2]; simpl.
  - constructor.
  - destruct (f x); [constructor |]; exact IH.
  - destruct (f x), (f y); try reflexivity. apply perm_swap.
  - etransitivity; eassumption.
Qed.

(** A list has one ascending rearrangement. *)
Lemma sorted_perm_eq (l1 l2 : list Z) :
  StronglySorted Z.le l1 -> StronglySorted Z.le l2 -> Permutation l1 l2 ->
  l1 = l2.
Proof.
  intros Hs1. revert l2.
  induction Hs1 as [| a l1 Hs1 IH Ha]; intros l2 Hs2 Hperm.
  - apply Permutation_nil in Hperm. congruence.
  - destruct Hs2 as [| b l2 Hs2 Hb].
    + apply Permutation_sym, Permutation_nil in Hperm. discriminate.
    + rewrite Forall_forall in Ha, Hb.
      assert (a = b) as <-.
      { pose proof (Permutation_in a Hperm (or_introl eq_refl)) as Hin_a.
        pose proof (Permutation_in b (Permutation_sym Hperm)
                      (or_introl eq_refl)) as Hin_b.
        destruct Hin_a as [-> | Hin_a]; [reflexivity |].
        destruct Hin_b as [-> | Hin_b]; [reflexivity |].
        specialize (Ha _ Hin_b). specialize (Hb _ Hin_a). lia. }
      f_equal. apply IH; [exact Hs2 |].
      eapply Permutation_cons_inv. exact Hperm.
Qed.

Lemma sort_perm_eq (l l' : list Z) : Permutation l l' -> sort l = sort l'.
Proof.
  intros Hperm.
  apply sorted_perm_eq;
    try (apply Sorted_StronglySorted;
         [intros x y z; apply Z.le_trans | apply sort_sorted]).
  rewrite !sort_perm. exact Hperm.
Qed.

(** The sorted remainder lists decide the result. *)
Lemma find_maximum_remainder_by_remainders (n n' : Z) (arr arr' : list Z)
  (k : Z) :
  k >= 1 ->
  sort (map (fun v => v mod k) (filter Z.even arr)) =
  sort (map (fun v => v mod k) (filter Z.even arr')) ->
  sort (map (fun v => v mod k) (filter Z.odd arr)) =
  sort (map (fun v => v mod k) (filter Z.odd arr')) ->
  find_maximum_remainder n arr k = find_maximum_remainder n' arr' k.
Proof.
  intros Hk Hevens Hodds. unfold find_maximum_remainder.
  destruct (k =? 1); [reflexivity |].
  rewrite !partition_loop by exact Hk. cbn [bind app]. cbv zeta.
  rewrite Hevens, Hodds. reflexivity.
Qed.

Lemma congruent_remainders (k : Z) (f : Z -> bool) (arr arr' : list Z) :
  Forall2 (fun a a' => f a = f a' /\ a mod k = a' mod k) arr arr' ->
  map (fun v => v mod k) (filter f arr) =
  map (fun v => v mod k) (filter f arr').
Proof.
  induction 1 as [| a a' arr arr' [Hf Hmod] _ IH]; [reflexivity |].
  cbn [filter]. rewrite <- Hf. destruct (f a); cbn [map]; congruence.
Qed.

(** *** Pairs that do not wrap around *)

(** On sorted [odds], an iteration brings [best] up to [even_rem + o]
    for every odd remainder [o] below the target. *)
Lemma search_step_covers (k : Z) (odds : list Z) (best even_rem : Z) :
  k >= 1 -> Sorted Z.le odds ->
  exists best',
    search_step_no_early_return k odds best even_rem = Normal best' /\
    best <= best' /\
    forall o, In o odds -> o < k - even_rem -> even_rem + o <= best'.
Proof.
  intros Hk Hsorted. unfold search_step_no_early_return.
  destruct (bisect_left_sorted odds (k - even_rem) Hsorted)
    as (idx & -> & Hidx & Hbelow & Habove).
  assert (Hlargest : forall o, In o odds -> o < k - even_rem ->
            0 < idx /\ o <= nth (Z.to_nat (idx - 1)) odds 0).
  { intros o Hin Hlt.
    destruct (In_nth odds o 0 Hin) as (i & Hi & <-).
    assert (Z.of_nat i < idx).
    { destruct (Z.lt_ge_cases (Z.of_nat i) idx) as [? | Hge]; [assumption |].
      specialize (Habove (Z.of_nat i) ltac:(unfold len; lia)).
      rewrite Nat2Z.id in Habove. lia. }
    split; [lia |]. apply sorted_nth_le; [exact Hsorted |].
    unfold len in Hidx. lia. }
  cbn [bind]. unfold mod_.
  destruct (Z.eqb_spec k 0) as [? | _]; [lia |].
  rewrite (Z.gtb_ltb idx 0).
  destruct (Z.ltb_spec 0 idx) as [Hpos | Hzero];
    [rewrite (getitem_nth odds (idx - 1)) by lia |];
    (destruct (Z.ltb_spec idx (len odds)) as [Hlt | Hge];
     [rewrite (getitem_nth odds idx) by lia |]);
    simpl; cases_cmp; simpl; cases_cmp; simpl;
    eexists; (split; [reflexivity |]); (split; [lia |]);
    intros o Hin Ho; destruct (Hlargest o Hin Ho); lia.
Qed.

Lemma search_loop_covers (k : Z) (odds evens : list Z) (best : Z) :
  k >= 1 -> Sorted Z.le odds ->
  exists final,
    for_each evens best (search_step_no_early_return k odds) = Normal final /\
    best <= final /\
    forall e o, In e evens -> In o odds -> o < k - e -> e + o <= final.
Proof.
  intros Hk Hsorted. revert best.
  induction evens as [| even_rem evens IH]; intros best.
  - exists best. repeat split; [lia | intros e o []].
  - destruct (search_step_covers k odds best even_rem Hk Hsorted)
      as (best' & Hstep & Hle & Hcover).
    destruct (IH best') as (final & Hrun & Hle' & Hcover').
    exists final. cbn [for_each]. rewrite Hstep. cbn [bind].
    split; [exact Hrun |]. split; [lia |].
    intros e o [<- | He] Ho Hlt.
    + specialize (Hcover o Ho Hlt). lia.
    + apply Hcover'; assumption.
Qed.

(** The result is a pair remainder (or 0) that no pair adding up below
    [k] exceeds. *)
Lemma unwrapped_pairs_covered (n : Z) (arr : list Z) (k : Z) :
  k >= 1 ->
  exists v, find_maximum_remainder n arr k = Normal v /\
    0 <= v /\
    (v = 0 \/ In v (pair_remainders arr k)) /\
    forall a b, In a arr -> Z.even a = true -> In b arr -> Z.odd b = true ->
                a mod k + b mod k < k -> (a + b) mod k <= v.
Proof.
  intros Hk.
  destruct (find_maximum_remainder_cases n arr k Hk)
    as (v & Hv & Hfull & Hrange & Hpair).
  exists v. repeat split; auto; try lia.
  intros a b Ha Heven Hb Hodd Hsum.
  destruct (Z.eq_dec k 1) as [-> | Hk1].
  { rewrite Z.mod_1_r. lia. }
  unfold find_maximum_remainder_no_early_return in Hfull.
  destruct (Z.eqb_spec k 1); [contradiction |].
  rewrite partition_loop in Hfull by exact Hk. cbn [bind app] in Hfull.
  cbv zeta in Hfull.
  destruct (search_loop_covers k
              (sort (map (fun v => v mod k) (filter Z.odd arr)))
              (sort (map (fun v => v mod k) (filter Z.even arr))) 0 Hk
              (sort_sorted _))
    as (final & Hrun & _ & Hcover).
  rewrite Hrun in Hfull. cbn [bind call] in Hfull.
  injection Hfull as <-.
  rewrite Z.add_mod, Z.mod_small by
    (pose proof (Z.mod_pos_bound a k); pose proof (Z.mod_pos_bound b k); lia).
  apply Hcover; [| | lia];
    apply (Permutation_in _ (Permutation_sym (sort_perm _)));
    apply (in_map (fun v => v mod k)), filter_In; auto.
Qed.

Lemma fold_max_le (l : list Z) (v : Z) :
  0 <= v -> (forall r, In r l -> r <= v) -> fold_right Z.max 0 l <= v.
Proof.
  intros Hv. induction l as [| r l IH]; intros Hall; simpl; [exact Hv |].
  pose proof (Hall r (or_introl eq_refl)).
  specialize (IH (fun r' Hin => Hall r' (or_intror Hin))). lia.
Qed.

Lemma find_maximum_remainder_sound_witness :
  10 >= 1 /\
  exists v, find_maximum_remainder 3 [8; 3; 9] 10 = Normal v /\
            (v = 0 \/ In v (pair_remainders [8; 3; 9] 10)) /\
            v <= max_pair_remainder [8; 3; 9] 10.
Proof.
  split; [lia |].
  apply (find_maximum_remainder_sound 3 [8; 3; 9] 10). lia.
Defined.

(** X2.  For [k >= 1], the result is at least [(a + b) mod k] for every
    even element [a] and odd element [b] whose remainders add up to less
    than [k] (a pair that does not wrap around). *)
Theorem find_maximum_remainder_covers_unwrapped (n : Z) (arr : list Z)
  (k a b : Z) :
  k >= 1 ->
  In a arr -> Z.even a = true -> In b arr -> Z.odd b = true ->
  a mod k + b mod k < k ->
  exists v, find_maximum_remainder n arr k = Normal v /\ (a + b) mod k <= v.
Proof.
  intros Hk Ha Heven Hb Hodd Hsum.
  destruct (unwrapped_pairs_covered n arr k Hk) as (v & Hv & _ & _ & Hcover).
  exists v. split; [exact Hv |]. apply Hcover; assumption.
Qed.

Lemma find_maximum_remainder_covers_unwrapped_witness :
  exists v, find_maximum_remainder 4 [12; 7; 4; 21] 10 = Normal v /\
            (4 + 21) mod 10 <= v.
Proof.
  apply (find_maximum_remainder_covers_unwrapped 4 [12; 7; 4; 21] 10 4 21);
    simpl; auto; lia.
Defined.

(** X3.  For [k >= 1], when every even element has some odd partner with
    which its remainder adds up to less than [k], the function returns
    exactly the maximum of [(a + b) mod k] over all pairs of an even and
    an odd element. *)
Theorem find_maximum_remainder_exact (n : Z) (arr : list Z) (k : Z) :
  k >= 1 ->
  (forall a, In a arr -> Z.even a = true ->
             exists b, In b arr /\ Z.odd b = true /\ a mod k + b mod k < k) ->
  find_maximum_remainder n arr k = Normal (max_pair_remainder arr k).
Proof.
  intros Hk Hpartner.
  destruct (unwrapped_pairs_covered n arr k Hk)
    as (v & -> & Hv & Hpair & Hcover).
  f_equal. apply Z.le_antisymm; [apply max_pair_remainder_upper; exact Hpair |].
  apply fold_max_le; [exact Hv |].
  intros r Hr. unfold pair_remainders in Hr.
  apply in_flat_map in Hr. destruct Hr as (a & Ha & Hr).
  apply in_map_iff in Hr. destruct Hr as (b & <- & Hb).
  apply filter_In in Ha, Hb. destruct Ha as [Ha Heven], Hb as [Hb Hodd].
  destruct (Z.lt_ge_cases (a mod k + b mod k) k) as [Hsum | Hwrap].
  - apply Hcover; assumption.
  - destruct (Hpartner a Ha Heven) as (b0 & Hb0 & Hodd0 & Hsum0).
    specialize (Hcover a b0 Ha Heven Hb0 Hodd0 Hsum0).
    pose proof (Z.mod_pos_bound a k ltac:(lia)).
    pose proof (Z.mod_pos_bound b k ltac:(lia)).
    pose proof (Z.mod_pos_bound b0 k ltac:(lia)).
    rewrite (Z.add_mod a b0), Z.mod_small in Hcover by lia.
    rewrite (Z.add_mod a b) by lia.
    replace (a mod k + b mod k) with (a mod k + b mod k - k + 1 * k) by lia.
    rewrite Z.mod_add, Z.mod_small by lia. lia.
Qed.

Lemma find_maximum_remainder_exact_witness :
  find_maximum_remainder 5 [1; 2; 3; 4; 5] 3 =
  Normal (max_pair_remainder [1; 2; 3; 4; 5] 3).
Proof.
  apply (find_maximum_remainder_exact 5 [1; 2; 3; 4; 5] 3); [lia |].
  intros a Ha Heven. exists 3.
  simpl in Ha.
  destruct Ha as [<- | [<- | [<- | [<- | [<- | []]]]]];
    try discriminate Heven;
    (split; [simpl; auto | split; [reflexivity | vm_compute; reflexivity]]).
Defined.

(** X4.  With [k = 0] the function raises [ZeroDivisionError] as soon as
    the array has an element; on the empty array it returns 0 for every
    [k], zero and negative ones included. *)
Theorem find_maximum_remainder_zero_modulus :
  (forall n value arr,
      find_maximum_remainder n (value :: arr) 0 = Raise ZeroDivisionError) /\
  (forall n k, find_maximum_remainder n [] k = Normal 0).
Proof. split; [apply zero_modulus_raises | apply empty_array_value]. Qed.

(** X5.  With a negative modulus the function raises nothing and returns
    0, whatever the array: no stored remainder is positive, so no
    candidate ever beats the initial [best]. *)
Theorem find_maximum_remainder_negative_modulus (n : Z) (arr : list Z)
  (k : Z) :
  k < 0 -> find_maximum_remainder n arr k = Normal 0.
Proof. apply negative_modulus_value. Qed.

Lemma find_maximum_remainder_negative_modulus_witness :
  -10 < 0 /\ find_maximum_remainder 3 [8; 3; 9] (-10) = Normal 0.
Proof.
  split; [lia |].
  apply (find_maximum_remainder_negative_modulus 3 [8; 3; 9] (-10)). lia.
Defined.

(** X6.  The order of the array does not matter: for every [k], two
    arrays that are rearrangements of each other give the same outcome
    (the same value, or the same exception). *)
Theorem find_maximum_remainder_permutation (n : Z) (arr arr' : list Z)
  (k : Z) :
  Permutation arr arr' ->
  find_maximum_remainder n arr k = find_maximum_remainder n arr' k.
Proof.
  intros Hperm.
  destruct (Z.lt_trichotomy k 0) as [Hneg | [-> | Hpos]].
  - rewrite !negative_modulus_value by exact Hneg. reflexivity.
  - destruct arr as [| value arr], arr' as [| value' arr'].
    + reflexivity.
    + apply Permutation_nil in Hperm. discriminate.
    + apply Permutation_sym, Permutation_nil in Hperm. discriminate.
    + rewrite !zero_modulus_raises. reflexivity.
  - apply find_maximum_remainder_by_remainders; [lia | |];
      apply sort_perm_eq, Permutation_map, filter_perm; exact Hperm.
Qed.

Lemma find_maximum_remainder_permutation_witness :
  find_maximum_remainder 3 [8; 3; 9] 10 =
  find_maximum_remainder 3 [3; 8; 9] 10.
Proof.
  apply (find_maximum_remainder_permutation 3 [8; 3; 9] [3; 8; 9] 10).
  apply perm_swap.
Defined.

(** X7.  For [k >= 1] the result depends on each element only through its
    parity and its remainder modulo [k]: replacing every element by one
    of the same parity and the same remainder leaves the result
    unchanged. *)
Theorem find_maximum_remainder_congruent (n : Z) (arr arr' : list Z)
  (k : Z) :
  k >= 1 ->
  Forall2 (fun a a' => Z.odd a = Z.odd a' /\ a mod k = a' mod k) arr arr' ->
  find_maximum_remainder n arr k = find_maximum_remainder n arr' k.
Proof.
  intros Hk Hcongr.
  apply find_maximum_remainder_by_remainders; [exact Hk | |];
    f_equal; apply congruent_remainders; [| exact Hcongr].
  eapply Forall2_impl; [| exact Hcongr].
  intros a a' [Hodd Hmod]. rewrite <- !Z.negb_odd, Hodd. auto.
Qed.

Lemma find_maximum_remainder_congruent_witness :
  find_maximum_remainder 3 [8; 3; 9] 5 =
  find_maximum_remainder 3 [-2; 13; 19] 5.
Proof.
  apply (find_maximum_remainder_congruent 3 [8; 3; 9] [-2; 13; 19] 5);
    [lia |].
  repeat constructor.
Defined.

End MaxRemainderBehaviour.

(** ** count_special_ranges: bounds outside the contract, and how calls
    combine *)

Module SpecialRangesBehaviour.
Import Py PyFacts SpecialRanges SpecialRangesFacts.

(** The enumeration, as a difference of two window counts. *)
Lemma brute_force_difference (lower upper : Z) (types specials : str) :
  lower <= upper + 1 ->
  brute_force lower upper types specials =
  windows_at_most (binary_of types specials) upper -
  windows_at_most (binary_of types specials) (lower - 1).
Proof.
  intros Hle. unfold brute_force, windows_at_most.
  rewrite binary_of_length.
  set (c := fun p : nat * nat =>
              let '(i, j) := p in window_sum (binary_of types specials) i j).
  rewrite (filter_ext
             (fun '(i, j) =>
                let count := special_count types specials i j in
                (lower <=? count) && (count <=? upper))
             (fun p => (lower <=? c p) && (c p <=? upper)))
    by (intros [i j]; unfold c; rewrite window_sum_binary_of; reflexivity).
  rewrite count_between by exact Hle.
  f_equal; do 2 f_equal; apply filter_ext; intros [i j]; reflexivity.
Qed.

Lemma windows_at_most_range (binary : list Z) (limit : Z) :
  0 <= windows_at_most binary limit <=
  Z.of_nat (List.length (substrings (List.length binary))).
Proof.
  unfold windows_at_most. split; [lia |]. apply inj_le.
  rewrite <- (filter_all (fun _ => true) (substrings (List.length binary)))
    at 2 by reflexivity.
  apply filter_length_mono. reflexivity.
Qed.

(** From [len(binary)] on, the limit excludes no window. *)
Lemma windows_at_most_saturated (binary : list Z) (limit : Z) :
  Forall (fun b => b = 0 \/ b = 1) binary -> len binary <= limit ->
  windows_at_most binary limit =
  Z.of_nat (List.length (substrings (List.length binary))).
Proof.
  intros Hflags Hlimit. unfold windows_at_most.
  rewrite filter_all; [reflexivity |].
  intros [i j] _. apply Z.leb_le.
  pose proof (window_sum_le_length binary i j (flags_nonneg _ Hflags)
                (flags_le_1 _ Hflags)).
  unfold len in Hlimit. lia.
Qed.

Lemma prefix_sum_zero (binary : list Z) (m : nat) :
  Forall (fun b => b = 0) binary -> prefix_sum binary m = 0.
Proof.
  unfold prefix_sum, sumZ. intros Hzero. revert m.
  induction Hzero as [| b binary -> _ IH]; intros m.
  - rewrite firstn_nil. reflexivity.
  - destruct m as [| m]; cbn [firstn fold_right]; [reflexivity |].
    rewrite IH. reflexivity.
Qed.

(** With no flag set, every window sums to 0. *)
Lemma windows_at_most_no_flags (binary : list Z) (limit : Z) :
  Forall (fun b => b = 0) binary ->
  windows_at_most binary limit =
  if 0 <=? limit
  then Z.of_nat (List.length (substrings (List.length binary)))
  else 0.
Proof.
  intros Hzero. unfold windows_at_most.
  assert (Hsum : forall i j, In (i, j) (substrings (List.length binary)) ->
                             window_sum binary i j = 0).
  { intros i j Hin. apply in_substrings in Hin.
    rewrite window_sum_prefix, !prefix_sum_zero by (auto; lia).
    reflexivity. }
  destruct (Z.leb_spec 0 limit).
  - rewrite filter_all; [reflexivity |].
    intros [i j] Hin. rewrite (Hsum i j Hin). apply Z.leb_le. lia.
  - rewrite filter_nothing; [reflexivity |].
    intros [i j] Hin. rewrite (Hsum i j Hin). apply Z.leb_gt. lia.
Qed.

Lemma binary_of_same_set (types specials1 specials2 : str) :
  (forall ch, In ch specials1 <-> In ch specials2) ->
  binary_of types specials1 = binary_of types specials2.
Proof.
  intros Hsame. unfold binary_of. apply map_ext. intros ch.
  pose proof (is_special_In specials1 ch) as H1.
  pose proof (is_special_In specials2 ch) as H2.
  specialize (Hsame ch).
  destruct (is_special specials1 ch), (is_special specials2 ch);
    try reflexivity; exfalso.
  - assert (false = true) by tauto. discriminate.
  - assert (false = true) by tauto. discriminate.
Qed.

Lemma binary_of_no_special (types specials : str) :
  (forall ch, In ch types -> ~ In ch specials) ->
  Forall (fun b => b = 0) (binary_of types specials).
Proof.
  intros Hnone. unfold binary_of. apply Forall_map, Forall_forall.
  intros ch Hin. destruct (is_special specials ch) eqn:Hspecial;
    [| reflexivity].
  apply is_special_In in Hspecial. destruct (Hnone ch Hin Hspecial).
Qed.

Lemma half_of_double (t x : Z) : 2 * t = x -> x / 2 = t.
Proof. intros <-. rewrite Z.mul_comm. apply Z.div_mul. lia. Qed.

(** X8.  On every sequence of non-negative integers, and for every
    limit, [count_at_most] raises nothing and returns the number of
    windows [binary[i .. j]], [i <= j], whose sum is at most the limit. *)
Theorem count_at_most_counts_windows (binary : list Z) (limit : Z) :
  Forall (fun b => 0 <= b) binary ->
  count_at_most binary limit = Normal (windows_at_most binary limit).
Proof. apply count_at_most_spec. Qed.

Lemma count_at_most_counts_windows_witness :
  count_at_most [1; 1; 0; 1; 1] 2 = Normal (windows_at_most [1; 1; 0; 1; 1] 2).
Proof.
  apply (count_at_most_counts_windows [1; 1; 0; 1; 1] 2).
  repeat (constructor; [lia |]). constructor.
Defined.

(** X9.  With the bounds the wrong way round, [lower > upper], the
    function returns the negated number of substrings whose special
    count lies strictly between them, in [[upper + 1, lower - 1]]; so it
    is 0 for [lower = upper + 1] and never positive. *)
Theorem count_special_ranges_inverted (n k lower upper : Z)
  (types specials : str) :
  upper < lower ->
  count_special_ranges n k lower upper types specials =
  Normal (- brute_force (upper + 1) (lower - 1) types specials).
Proof.
  intros Hinv. rewrite count_special_ranges_value. f_equal.
  rewrite brute_force_difference by lia.
  replace (upper + 1 - 1) with upper by lia. lia.
Qed.

Lemma count_special_ranges_inverted_witness :
  1 < 3 /\
  count_special_ranges 5 2 3 1 [955; 956; 99; 955; 956]%N [955; 956]%N =
  Normal (- brute_force (1 + 1) (3 - 1)
              [955; 956; 99; 955; 956]%N [955; 956]%N).
Proof.
  split; [lia |].
  apply (count_special_ranges_inverted 5 2 3 1
           [955; 956; 99; 955; 956]%N [955; 956]%N).
  lia.
Defined.

(** X10.  For every input the function raises nothing and returns a
    value between [-t] and [t], where [t = len(types) * (len(types) + 1) / 2]
    is the number of substrings; the value is non-negative when
    [lower <= upper + 1]. *)
Theorem count_special_ranges_bounded (n k lower upper : Z)
  (types specials : str) :
  exists v,
    count_special_ranges n k lower upper types specials = Normal v /\
    - (len types * (len types + 1) / 2) <= v
      <= len types * (len types + 1) / 2 /\
    (lower <= upper + 1 -> 0 <= v).
Proof.
  rewrite count_special_ranges_value. eexists. split; [reflexivity |].
  pose proof (windows_at_most_range (binary_of types specials) upper) as Hup.
  pose proof (windows_at_most_range (binary_of types specials) (lower - 1))
    as Hlow.
  rewrite binary_of_length in Hup, Hlow. unfold len.
  rewrite (half_of_double _ _ (substrings_length (List.length types))).
  split; [lia |]. intros Hle.
  pose proof (windows_at_most_mono (binary_of types specials)
                (lower - 1) upper ltac:(lia)).
  lia.
Qed.

(** X11.  Adjacent ranges add up: for all bounds, the count for
    [[lower, upper]] is the count for [[lower, mid]] plus the count for
    [[mid + 1, upper]]. *)
Theorem count_special_ranges_additive (n k lower mid upper : Z)
  (types specials : str) :
  exists whole left_part right_part,
    count_special_ranges n k lower upper types specials = Normal whole /\
    count_special_ranges n k lower mid types specials = Normal left_part /\
    count_special_ranges n k (mid + 1) upper types specials =
      Normal right_part /\
    whole = left_part + right_part.
Proof.
  rewrite !count_special_ranges_value.
  replace (mid + 1 - 1) with mid by lia.
  do 3 eexists. repeat split. lia.
Qed.

(** X12.  Only the set of characters (code points) of [specials]
    matters: two strings with the same characters, in any order and with any repetitions,
    give the same result. *)
Theorem count_special_ranges_same_set (n k lower upper : Z)
  (types specials1 specials2 : str) :
  (forall ch, In ch specials1 <-> In ch specials2) ->
  count_special_ranges n k lower upper types specials1 =
  count_special_ranges n k lower upper types specials2.
Proof.
  intros Hsame. rewrite !count_special_ranges_value.
  rewrite (binary_of_same_set types specials1 specials2 Hsame).
  reflexivity.
Qed.

Lemma count_special_ranges_same_set_witness :
  count_special_ranges 5 2 1 2 [955; 956; 99; 955; 956]%N [955; 956]%N =
  count_special_ranges 5 2 1 2 [955; 956; 99; 955; 956]%N [956; 955; 956]%N.
Proof.
  apply (count_special_ranges_same_set 5 2 1 2
           [955; 956; 99; 955; 956]%N [955; 956]%N [956; 955; 956]%N).
  intros ch. simpl. tauto.
Defined.

(** X13.  Bounds beyond what a substring can hold are clamped: a
    [lower <= 0] acts as 0 and an [upper >= len(types)] acts as
    [len(types)]. *)
Theorem count_special_ranges_clamped (n k lower upper : Z)
  (types specials : str) :
  (lower <= 0 ->
   count_special_ranges n k lower upper types specials =
   count_special_ranges n k 0 upper types specials) /\
  (len types <= upper ->
   count_special_ranges n k lower upper types specials =
   count_special_ranges n k lower (len types) types specials).
Proof.
  pose proof (binary_of_flags types specials) as Hflags.
  split; intros Hbound; rewrite !count_special_ranges_value.
  - rewrite (windows_at_most_negative _ (lower - 1)),
      (windows_at_most_negative _ (0 - 1))
      by (auto using flags_nonneg; lia).
    reflexivity.
  - assert (Hlen : len (binary_of types specials) = len types)
      by (unfold len; rewrite binary_of_length; reflexivity).
    rewrite (windows_at_most_saturated _ upper),
      (windows_at_most_saturated _ (len types)) by (auto; lia).
    reflexivity.
Qed.

Lemma count_special_ranges_clamped_witness :
  count_special_ranges 5 2 (-3) 1 [955; 956; 99; 955; 956]%N [955; 956]%N =
    count_special_ranges 5 2 0 1 [955; 956; 99; 955; 956]%N [955; 956]%N /\
  count_special_ranges 5 2 4 6 [955; 956; 99; 955; 956]%N [955; 956]%N =
    count_special_ranges 5 2 4 (len [955; 956; 99; 955; 956]%N)
      [955; 956; 99; 955; 956]%N [955; 956]%N.
Proof.
  split.
  - apply (proj1 (count_special_ranges_clamped 5 2 (-3) 1
                    [955; 956; 99; 955; 956]%N [955; 956]%N)).
    lia.
  - apply (proj2 (count_special_ranges_clamped 5 2 4 6
                    [955; 956; 99; 955; 956]%N [955; 956]%N)).
    vm_compute. discriminate.
Defined.

(** X14.  When no character of [types] is special (an empty [specials],
    for one), every substring has special count 0: the function returns
    the number of all substrings if [lower <= 0 <= upper], and 0 for any
    other [lower <= upper]. *)
Theorem count_special_ranges_no_special (n k lower upper : Z)
  (types specials : str) :
  (forall ch, In ch types -> ~ In ch specials) ->
  lower <= upper ->
  count_special_ranges n k lower upper types specials =
  Normal (if (lower <=? 0) && (0 <=? upper)
          then len types * (len types + 1) / 2
          else 0).
Proof.
  intros Hnone Hle. rewrite count_special_ranges_value. f_equal.
  rewrite !windows_at_most_no_flags by (apply binary_of_no_special; exact Hnone).
  rewrite binary_of_length. unfold len.
  rewrite (half_of_double _ _ (substrings_length (List.length types))).
  destruct (Z.leb_spec 0 upper), (Z.leb_spec 0 (lower - 1)),
    (Z.leb_spec lower 0); cbn [andb]; lia.
Qed.

Lemma count_special_ranges_no_special_witness :
  count_special_ranges 1 0 0 2 [955]%N [956]%N =
  Normal (if (0 <=? 0) && (0 <=? 2)
          then len [955]%N * (len [955]%N + 1) / 2
          else 0).
Proof.
  apply (count_special_ranges_no_special 1 0 0 2 [955]%N [956]%N); [| lia].
  intros ch [<- | []] [Heq | []]. discriminate Heq.
Defined.

End SpecialRangesBehaviour.
